(** * clReflect: the reflection database (ClangReflectCore/Database.h)

    A shallow embedding of namespace [crdb]: the reflected primitives, their
    equality operators, the per-type primitive stores and the [Database]
    member templates [AddPrimitive], [GetFirstPrimitive], [GetPrimitiveStore]
    and [GetUnnamedPrimitiveStore], followed by the properties proved of
    them. *)

From Stdlib Require Import ZArith List String Bool Lia.
Import ListNotations.

Module crdb.

Local Open Scope Z_scope.

(** ** Some handy types *)

Abbreviation u8 := Z (only parsing).
Abbreviation u16 := Z (only parsing).
Abbreviation u32 := Z (only parsing).

(** ** Names

    [NameMap] is [std::map<u32, std::string>]: the pairs in key order.
    A [Name] is a [NameMap::const_iterator]: it is either positioned on the
    pair stored under a hash, or it is the past-the-end iterator.  Two
    iterators of one map compare equal exactly when they have the same
    position. *)

Definition NameMap := list (u32 * string).

Inductive Name : Type :=
| NameEnd
| NameAt (hash : u32).

Definition Name_eqb (a b : Name) : bool :=
  match a, b with
  | NameEnd, NameEnd => true
  | NameAt x, NameAt y => x =? y
  | _, _ => false
  end.

(** [n->first]; the past-the-end iterator cannot be dereferenced. *)
Definition first (n : Name) : option u32 :=
  match n with
  | NameAt h => Some h
  | NameEnd => None
  end.

(** ** Primitives *)

Inductive Kind : Type :=
| KIND_NAMESPACE
| KIND_TYPE
| KIND_CLASS
| KIND_ENUM
| KIND_ENUM_CONSTANT
| KIND_FUNCTION
| KIND_FIELD.

Record Primitive := mkPrimitive {
  kind : Kind;
  name : Name;
  parent : Name
}.

Record Namespace := mkNamespace { Namespace_base :> Primitive }.

Record Type_ := mkType { Type_base :> Primitive }.

Record Class_ := mkClass {
  Class_base :> Type_;
  base_class : Name;
  size : u32
}.

Record Enum := mkEnum { Enum_base :> Type_ }.

Record EnumConstant := mkEnumConstant {
  EnumConstant_base :> Primitive;
  value : Z
}.

Record Function := mkFunction {
  Function_base :> Primitive;
  unique_id : u32
}.

Inductive Modifier : Type :=
| MODIFIER_VALUE
| MODIFIER_POINTER
| MODIFIER_REFERENCE.

Definition Modifier_eqb (a b : Modifier) : bool :=
  match a, b with
  | MODIFIER_VALUE, MODIFIER_VALUE => true
  | MODIFIER_POINTER, MODIFIER_POINTER => true
  | MODIFIER_REFERENCE, MODIFIER_REFERENCE => true
  | _, _ => false
  end.

Record Field := mkField {
  Field_base :> Primitive;
  type : Name;
  modifier : Modifier;
  is_const : bool;
  offset : Z;
  parent_unique_id : u32
}.

(** The constructors that take a name and a parent. *)

Definition Namespace_ (n p : Name) : Namespace :=
  mkNamespace (mkPrimitive KIND_NAMESPACE n p).

Definition Type_np (n p : Name) : Type_ :=
  mkType (mkPrimitive KIND_TYPE n p).

Definition Type_knp (k : Kind) (n p : Name) : Type_ :=
  mkType (mkPrimitive k n p).

Definition Class_npbs (n p b : Name) (s : u32) : Class_ :=
  mkClass (Type_knp KIND_CLASS n p) b s.

Definition Enum_np (n p : Name) : Enum :=
  mkEnum (Type_knp KIND_ENUM n p).

Definition EnumConstant_npv (n p : Name) (v : Z) : EnumConstant :=
  mkEnumConstant (mkPrimitive KIND_ENUM_CONSTANT n p) v.

Definition Function_npu (n p : Name) (uid : u32) : Function :=
  mkFunction (mkPrimitive KIND_FUNCTION n p) uid.

Definition Field_ (n p t : Name) (pass : Modifier) (c : bool) (o : Z) (uid : u32) : Field :=
  mkField (mkPrimitive KIND_FIELD n p) t pass c o uid.

(** ** The equality operators *)

Definition EnumConstant_eq (lhs rhs : EnumConstant) : bool :=
  Name_eqb (name lhs) (name rhs) &&
  Name_eqb (parent lhs) (parent rhs) &&
  (value lhs =? value rhs).

Definition Function_eq (lhs rhs : Function) : bool :=
  Name_eqb (name lhs) (name rhs) &&
  Name_eqb (parent lhs) (parent rhs) &&
  (unique_id lhs =? unique_id rhs).

Definition Field_eq (lhs rhs : Field) : bool :=
  Name_eqb (name lhs) (name rhs) &&
  Name_eqb (parent lhs) (parent rhs) &&
  Name_eqb (type lhs) (type rhs) &&
  Modifier_eqb (modifier lhs) (modifier rhs) &&
  Bool.eqb (is_const lhs) (is_const rhs) &&
  (offset lhs =? offset rhs) &&
  (parent_unique_id lhs =? parent_unique_id rhs).

(** ** Primitive stores

    [PrimitiveStore<TYPE>] is a [std::multimap<u32, TYPE>].  The model is the
    sequence a traversal from [begin()] to [end()] visits: the pairs in
    non-decreasing key order, pairs with equal keys in the order they were
    inserted.  [insert] puts the new pair at the upper bound of its key
    and [equal_range] is the run of pairs that carry the key.  [find] is
    the search of the tree for the lower bound of the key, so among equal
    keys it gives the one inserted first: the comment in
    [GetFirstPrimitive] counts on it. *)

Definition PrimitiveStore (TYPE : Type) := list (u32 * TYPE).

Section Store.
Context {TYPE : Type}.

Fixpoint insert (v : u32 * TYPE) (s : PrimitiveStore TYPE) : PrimitiveStore TYPE :=
  match s with
  | [] => [v]
  | e :: t => if fst v <? fst e then v :: s else e :: insert v t
  end.

(** The iterator [find] returns: [None] stands for [end()]. *)
Fixpoint find (k : u32) (s : PrimitiveStore TYPE) : option (u32 * TYPE) :=
  match s with
  | [] => None
  | e :: t => if fst e =? k then Some e else find k t
  end.

Definition equal_range (k : u32) (s : PrimitiveStore TYPE) : list (u32 * TYPE) :=
  filter (fun e => fst e =? k) s.

(** The representation invariant of the multimap: keys never decrease
    along the traversal. *)
Fixpoint ordered (s : PrimitiveStore TYPE) : bool :=
  match s with
  | [] => true
  | e :: t => forallb (fun e' => fst e <=? fst e') t && ordered t
  end.

(** [insert(first, last)] over the traversal of another store. *)
Definition insert_range (src dst : PrimitiveStore TYPE) : PrimitiveStore TYPE :=
  fold_left (fun acc e => insert e acc) src dst.

End Store.

(** ** The database *)

Record Database := mkDatabase {
  (* All unique, scope-qualified names *)
  m_Names : NameMap;
  (* Primitives are owned by the following maps depending upon their type *)
  m_Namespaces : PrimitiveStore Namespace;
  m_Types : PrimitiveStore Type_;
  m_Classes : PrimitiveStore Class_;
  m_Enums : PrimitiveStore Enum;
  m_EnumConstants : PrimitiveStore EnumConstant;
  m_Functions : PrimitiveStore Function;
  m_Fields : PrimitiveStore Field;
  m_UnnamedFields : PrimitiveStore Field
}.

(** The two ways the code can leave defined behaviour: by dereferencing
    the past-the-end iterator of the name map, and by binding a reference
    to the null pointer. *)
Inductive fault : Type :=
| PastTheEndDereference
| NullDereference.

(** How a call on a database ends: it returns, an [assert] fails, or the
    program has no defined behaviour from there on (the model stops). *)
Inductive outcome (A : Type) : Type :=
| Returned (a : A)
| AssertionFailed (msg : string)
| Undefined (f : fault).

Arguments Returned {A} a.
Arguments AssertionFailed {A} msg.
Arguments Undefined {A} f.

Definition then_ {A B} (o : outcome A) (k : A -> outcome B) : outcome B :=
  match o with
  | Returned a => k a
  | AssertionFailed msg => AssertionFailed msg
  | Undefined f => Undefined f
  end.

(** Member functions run on [*this]. *)
Definition M (A : Type) : Type := Database -> outcome (A * Database).

Definition ret {A} (a : A) : M A := fun db => Returned (a, db).

Definition bind {A B} (m : M A) (f : A -> M B) : M B :=
  fun db =>
    match m db with
    | Returned (a, db') => f a db'
    | AssertionFailed msg => AssertionFailed msg
    | Undefined f => Undefined f
    end.

Notation "x <- m ;; k" := (bind m (fun x => k))
  (at level 61, m at next level, right associativity).
Notation "m ;;; k" := (bind m (fun _ => k))
  (at level 61, right associativity).

Definition lift {A} (o : outcome A) : M A :=
  fun db =>
    match o with
    | Returned a => Returned (a, db)
    | AssertionFailed msg => AssertionFailed msg
    | Undefined f => Undefined f
    end.

(** [assert(condition && msg)], in a build that keeps its assertions; the
    string literal converts to [true]. *)
Definition assert (condition : bool) (msg : string) : outcome unit :=
  if condition && true then Returned tt else AssertionFailed msg.

(** [n->first] *)
Definition deref (n : Name) : M u32 :=
  fun db =>
    match first n with
    | Some h => Returned (h, db)
    | None => Undefined PastTheEndDereference
    end.

(** A reference to a member of the database: what reading through it gives
    and what writing through it changes. *)
Record ref (A : Type) := mkRef {
  load : Database -> A;
  save : A -> Database -> Database
}.

Arguments load {A} r db.
Arguments save {A} r a db.

Definition read {A} (r : ref A) : M A := fun db => Returned (load r db, db).

Definition modify {A} (r : ref A) (f : A -> A) : M unit :=
  fun db => Returned (tt, save r (f (load r db)) db).

Definition ref_Namespaces : ref (PrimitiveStore Namespace) :=
  mkRef _ m_Namespaces
    (fun s db => mkDatabase (m_Names db) s (m_Types db) (m_Classes db) (m_Enums db)
       (m_EnumConstants db) (m_Functions db) (m_Fields db) (m_UnnamedFields db)).

Definition ref_Types : ref (PrimitiveStore Type_) :=
  mkRef _ m_Types
    (fun s db => mkDatabase (m_Names db) (m_Namespaces db) s (m_Classes db) (m_Enums db)
       (m_EnumConstants db) (m_Functions db) (m_Fields db) (m_UnnamedFields db)).

Definition ref_Classes : ref (PrimitiveStore Class_) :=
  mkRef _ m_Classes
    (fun s db => mkDatabase (m_Names db) (m_Namespaces db) (m_Types db) s (m_Enums db)
       (m_EnumConstants db) (m_Functions db) (m_Fields db) (m_UnnamedFields db)).

Definition ref_Enums : ref (PrimitiveStore Enum) :=
  mkRef _ m_Enums
    (fun s db => mkDatabase (m_Names db) (m_Namespaces db) (m_Types db) (m_Classes db) s
       (m_EnumConstants db) (m_Functions db) (m_Fields db) (m_UnnamedFields db)).

Definition ref_EnumConstants : ref (PrimitiveStore EnumConstant) :=
  mkRef _ m_EnumConstants
    (fun s db => mkDatabase (m_Names db) (m_Namespaces db) (m_Types db) (m_Classes db)
       (m_Enums db) s (m_Functions db) (m_Fields db) (m_UnnamedFields db)).

Definition ref_Functions : ref (PrimitiveStore Function) :=
  mkRef _ m_Functions
    (fun s db => mkDatabase (m_Names db) (m_Namespaces db) (m_Types db) (m_Classes db)
       (m_Enums db) (m_EnumConstants db) s (m_Fields db) (m_UnnamedFields db)).

Definition ref_Fields : ref (PrimitiveStore Field) :=
  mkRef _ m_Fields
    (fun s db => mkDatabase (m_Names db) (m_Namespaces db) (m_Types db) (m_Classes db)
       (m_Enums db) (m_EnumConstants db) (m_Functions db) s (m_UnnamedFields db)).

Definition ref_UnnamedFields : ref (PrimitiveStore Field) :=
  mkRef _ m_UnnamedFields
    (fun s db => mkDatabase (m_Names db) (m_Namespaces db) (m_Types db) (m_Classes db)
       (m_Enums db) (m_EnumConstants db) (m_Functions db) (m_Fields db) s).

(** The member templates are instantiated at the seven primitive structs.
    Each struct has one tag of [Primitive::Kind], and the model names the
    template argument [TYPE] by that tag.  The argument is the static type
    of the primitive; the [kind] member it carries plays no part in the
    dispatch. *)
Definition TYPE_of (K : Kind) : Type :=
  match K with
  | KIND_NAMESPACE => Namespace
  | KIND_TYPE => Type_
  | KIND_CLASS => Class_
  | KIND_ENUM => Enum
  | KIND_ENUM_CONSTANT => EnumConstant
  | KIND_FUNCTION => Function
  | KIND_FIELD => Field
  end.

(** The [Primitive] base sub-object of a struct. *)
Definition base {K : Kind} : TYPE_of K -> Primitive :=
  match K return TYPE_of K -> Primitive with
  | KIND_NAMESPACE => fun p => p
  | KIND_TYPE => fun p => p
  | KIND_CLASS => fun p => p
  | KIND_ENUM => fun p => p
  | KIND_ENUM_CONSTANT => fun p => p
  | KIND_FUNCTION => fun p => p
  | KIND_FIELD => fun p => p
  end.

(** A compile-time map to runtime data stores for each primitive type *)
Definition GetPrimitiveStore (K : Kind) : ref (PrimitiveStore (TYPE_of K)) :=
  match K return ref (PrimitiveStore (TYPE_of K)) with
  | KIND_NAMESPACE => ref_Namespaces
  | KIND_TYPE => ref_Types
  | KIND_CLASS => ref_Classes
  | KIND_ENUM => ref_Enums
  | KIND_ENUM_CONSTANT => ref_EnumConstants
  | KIND_FUNCTION => ref_Functions
  | KIND_FIELD => ref_Fields
  end.

Definition no_unnamed_store : string :=
  "No unnamed primitive store for primitives of this type".

(** The same for unnamed primitives *)
Definition GetUnnamedPrimitiveStore (K : Kind) : outcome (ref (PrimitiveStore (TYPE_of K))) :=
  match K return outcome (ref (PrimitiveStore (TYPE_of K))) with
  | KIND_FIELD => Returned ref_UnnamedFields
  | _ =>
      then_ (assert false no_unnamed_store)
        (fun _ => Undefined NullDereference)
  end.

(** A database none of whose stores holds a primitive yet. *)
Definition no_primitives (names : NameMap) : Database :=
  mkDatabase names [] [] [] [] [] [] [] [].


Section Members.

(** [HashNameString] and [Database::GetNoName] are declared in Database.h
    and defined elsewhere: the hash of a string, and the reserved name of
    primitives that have none.  The members below take both as given. *)
Variable HashNameString : string -> u32.
Variable GetNoName : Name.

Definition AddPrimitive {K : Kind} (prim : TYPE_of K) : M unit :=
  if Name_eqb (name (base prim)) GetNoName then
    (* Unnamed primitives are mapped by parent *)
    store <- lift (GetUnnamedPrimitiveStore K) ;;
    key <- deref (parent (base prim)) ;;
    modify store (insert (key, prim))
  else
    let store := GetPrimitiveStore K in
    key <- deref (name (base prim)) ;;
    modify store (insert (key, prim)).

(** A caller adding primitives of one type one after the other. *)
Fixpoint AddPrimitives {K : Kind} (prims : list (TYPE_of K)) : M unit :=
  match prims with
  | [] => ret tt
  | prim :: rest => AddPrimitive prim ;;; AddPrimitives rest
  end.

Definition GetFirstPrimitive (K : Kind) (name_string : string) : M (option (TYPE_of K)) :=
  (* Get the store associated with this type *)
  store <- read (GetPrimitiveStore K) ;;
  (* Return the first instance of an object with this name *)
  let hash := HashNameString name_string in
  match find hash store with
  | Some i => ret (Some (snd i))
  | None => ret None
  end.

(** Modelled from the spec: the body of [Database::Merge], which
    Database.h only declares.  For every kind the other database's named
    store, and for Field its unnamed store, is united into the store of
    [*this]: a plain multimap union, the other side's entries inserted in
    their traversal order behind the entries already present.  The spec
    names no effect of a merge on the name map. *)
Definition Merge (other : Database) : M unit :=
  modify ref_Namespaces (insert_range (m_Namespaces other)) ;;;
  modify ref_Types (insert_range (m_Types other)) ;;;
  modify ref_Classes (insert_range (m_Classes other)) ;;;
  modify ref_Enums (insert_range (m_Enums other)) ;;;
  modify ref_EnumConstants (insert_range (m_EnumConstants other)) ;;;
  modify ref_Functions (insert_range (m_Functions other)) ;;;
  modify ref_Fields (insert_range (m_Fields other)) ;;;
  modify ref_UnnamedFields (insert_range (m_UnnamedFields other)).

(** Modelled from the spec: a call [target.Merge(other)] on two distinct
    databases, with the state of both after it.  The caller supplies the
    merge target; the other database is passed by reference to const and
    is left as it was. *)
Definition Merge_call (target other : Database) : outcome (Database * Database) :=
  match Merge other target with
  | Returned (_, target') => Returned (target', other)
  | AssertionFailed msg => AssertionFailed msg
  | Undefined f => Undefined f
  end.

(** *** Invariants of a database filled through [AddPrimitive] *)

(** Every store is in key order. *)
Definition well_ordered (db : Database) : Prop :=
  (forall K, ordered (load (GetPrimitiveStore K) db) = true) /\
  ordered (m_UnnamedFields db) = true.

(** A named store holds named primitives under the hash of their name;
    the unnamed store holds unnamed fields under the hash of their
    parent. *)
Definition named_entry {K : Kind} (e : u32 * TYPE_of K) : Prop :=
  name (base (snd e)) <> GetNoName /\ name (base (snd e)) = NameAt (fst e).

Definition unnamed_entry (e : u32 * Field) : Prop :=
  name (snd e) = GetNoName /\ parent (snd e) = NameAt (fst e).

Definition indexed (db : Database) : Prop :=
  (forall K, Forall named_entry (load (GetPrimitiveStore K) db)) /\
  Forall unnamed_entry (m_UnnamedFields db).

(** The databases a caller gets by starting without primitives and calling
    [AddPrimitive], each call returning. *)
Inductive built : Database -> Prop :=
| built_start names : built (no_primitives names)
| built_add K (prim : TYPE_of K) db db' :
    built db ->
    AddPrimitive prim db = Returned (tt, db') ->
    built db'.

End Members.

(** ** Sample data *)

Definition sample_hash (text : string) : u32 :=
  Z.of_nat (String.length text) mod 2 ^ 32.

Definition sample_parent : Name := NameAt 6.

Definition sample_namespace : Namespace := Namespace_ (NameAt 4) sample_parent.

Definition sample_anonymous_namespace : Namespace := Namespace_ NameEnd sample_parent.

Definition sample_field : Field :=
  Field_ (NameAt 1) sample_parent (NameAt 3) MODIFIER_VALUE false 0 0.

Definition sample_unnamed_field : Field :=
  Field_ NameEnd sample_parent (NameAt 3) MODIFIER_POINTER true 1 7.

Definition sample_other_field : Field :=
  Field_ (NameAt 1) (NameAt 4) (NameAt 3) MODIFIER_REFERENCE true 8 0.

Definition sample_db : Database :=
  mkDatabase [(1, "x"); (3, "int"); (4, "core"); (6, "Widget")]%string
    [(4, sample_namespace)] [] [] [] [] []
    [(1, sample_field)] [(6, sample_unnamed_field)].

Definition sample_int_field : Field :=
  Field_ (NameAt 3) sample_parent (NameAt 3) MODIFIER_VALUE false 4 0.

Definition sample_entries : list (u32 * Field) :=
  [(3, sample_int_field); (1, sample_other_field);
   (3, Field_ (NameAt 3) (NameAt 4) (NameAt 3) MODIFIER_POINTER false 12 0)].

Definition sample_unnamed_entries : list (u32 * Field) :=
  [(6, Field_ NameEnd sample_parent (NameAt 3) MODIFIER_VALUE false 2 7);
   (4, Field_ NameEnd (NameAt 4) (NameAt 3) MODIFIER_VALUE false 0 9);
   (6, Field_ NameEnd sample_parent (NameAt 1) MODIFIER_REFERENCE true 3 7)].

(** [sample_db] after the addition of [sample_other_field]. *)
Definition sample_db_more : Database :=
  save ref_Fields (insert (1, sample_other_field) (m_Fields sample_db)) sample_db.

(** A database without primitives after the addition of [sample_field]. *)
Definition sample_db_built : Database :=
  save ref_Fields (insert (1, sample_field) []) (no_primitives []).

Definition sample_other_db : Database :=
  mkDatabase [(1, "x"); (3, "int"); (4, "core")]%string
    [] [(3, Type_np (NameAt 3) NameEnd)] [] [] [] []
    [(1, sample_other_field); (1, sample_field)] [].

(** * Properties *)

(** ** Names and modifiers *)

Lemma Name_eqb_eq (a b : Name) : Name_eqb a b = true <-> a = b.
Proof.
  destruct a as [|x], b as [|y]; simpl; split; intros H;
    try reflexivity; try discriminate.
  - apply Z.eqb_eq in H. now subst.
  - injection H as ->. apply Z.eqb_refl.
Qed.

Lemma Name_eqb_neq (a b : Name) : Name_eqb a b = false <-> a <> b.
Proof.
  rewrite <- Name_eqb_eq. destruct (Name_eqb a b); split; congruence.
Qed.

Lemma Modifier_eqb_eq (a b : Modifier) : Modifier_eqb a b = true <-> a = b.
Proof.
  destruct a, b; simpl; split; intros H; try reflexivity; discriminate.
Qed.

(** ** The multimap model *)

Section StoreFacts.
Context {TYPE : Type}.
Implicit Types (s t src dst : PrimitiveStore TYPE) (v e : u32 * TYPE) (k : u32).

Lemma insert_length v s : List.length (insert v s) = S (List.length s).
Proof.
  induction s as [|e t IH]; simpl; [reflexivity|].
  destruct (fst v <? fst e); simpl; congruence.
Qed.

Lemma insert_In v s e : In e (insert v s) <-> e = v \/ In e s.
Proof.
  induction s as [|e' t IH]; simpl.
  - intuition congruence.
  - destruct (fst v <? fst e'); simpl; rewrite ?IH; intuition congruence.
Qed.

Lemma insert_Forall (P : u32 * TYPE -> Prop) v s :
  P v -> Forall P s -> Forall P (insert v s).
Proof.
  intros Hv Hs. apply Forall_forall. intros e He.
  apply insert_In in He. destruct He as [->|He]; [assumption|].
  revert e He. now apply Forall_forall.
Qed.

Lemma forallb_insert (p : u32 * TYPE -> bool) v s :
  forallb p (insert v s) = p v && forallb p s.
Proof.
  induction s as [|e t IH]; simpl.
  - reflexivity.
  - destruct (fst v <? fst e); simpl; [reflexivity|].
    rewrite IH. destruct (p v), (p e); reflexivity.
Qed.

Lemma forallb_le_trans k k' s :
  k' <= k ->
  forallb (fun e => k <=? fst e) s = true ->
  forallb (fun e => k' <=? fst e) s = true.
Proof.
  intros Hk H. rewrite forallb_forall in *. intros e He.
  specialize (H e He). apply Z.leb_le in H. apply Z.leb_le. lia.
Qed.

(** Insertion keeps the keys in order. *)
Lemma ordered_insert v s : ordered s = true -> ordered (insert v s) = true.
Proof.
  induction s as [|e t IH]; simpl; intros H; [reflexivity|].
  apply andb_true_iff in H. destruct H as [Hall Ht].
  destruct (Z.ltb_spec (fst v) (fst e)) as [Hlt|Hge]; simpl.
  - repeat (apply andb_true_iff; split); try assumption.
    + apply Z.leb_le. lia.
    + apply (forallb_le_trans (fst e)); [lia|assumption].
  - rewrite forallb_insert.
    repeat (apply andb_true_iff; split); auto.
    apply Z.leb_le. lia.
Qed.

Lemma equal_range_below k k' s :
  k' < k ->
  forallb (fun e => k <=? fst e) s = true ->
  equal_range k' s = [].
Proof.
  intros Hk. induction s as [|e t IH]; simpl; intros H; [reflexivity|].
  apply andb_true_iff in H. destruct H as [He Ht].
  apply Z.leb_le in He.
  destruct (Z.eqb_spec (fst e) k'); [lia|]. now apply IH.
Qed.

(** A pair goes behind the pairs that already carry its key. *)
Lemma equal_range_insert_same v s :
  ordered s = true ->
  equal_range (fst v) (insert v s) = equal_range (fst v) s ++ [v].
Proof.
  induction s as [|e t IH]; simpl; intros H.
  - now rewrite Z.eqb_refl.
  - apply andb_true_iff in H. destruct H as [Hall Ht].
    destruct (Z.ltb_spec (fst v) (fst e)) as [Hlt|Hge]; simpl.
    + rewrite Z.eqb_refl.
      destruct (Z.eqb_spec (fst e) (fst v)); [lia|].
      fold (equal_range (fst v) t).
      now rewrite (equal_range_below (fst e) (fst v) t) by assumption.
    + fold (equal_range (fst v) (insert v t)). rewrite (IH Ht).
      destruct (fst e =? fst v); reflexivity.
Qed.

(** The pairs under every other key are left as they were. *)
Lemma equal_range_insert_other k v s :
  k <> fst v ->
  equal_range k (insert v s) = equal_range k s.
Proof.
  intros Hk. induction s as [|e t IH]; simpl.
  - destruct (Z.eqb_spec (fst v) k); congruence.
  - destruct (fst v <? fst e); simpl.
    + destruct (Z.eqb_spec (fst v) k); congruence.
    + fold (equal_range k (insert v t)). now rewrite IH.
Qed.

Lemma equal_range_insert k v s :
  ordered s = true ->
  equal_range k (insert v s) = equal_range k s ++ equal_range k [v].
Proof.
  intros H. simpl. destruct (Z.eqb_spec (fst v) k) as [<-|Hk].
  - now apply equal_range_insert_same.
  - rewrite app_nil_r. apply equal_range_insert_other. congruence.
Qed.

(** [find] returns the head of the equal range. *)
Lemma find_equal_range k s : find k s = hd_error (equal_range k s).
Proof.
  induction s as [|e t IH]; simpl; [reflexivity|].
  destruct (fst e =? k); [reflexivity|assumption].
Qed.

Lemma equal_range_key k s e : In e (equal_range k s) -> fst e = k /\ In e s.
Proof.
  unfold equal_range. rewrite filter_In. intros [He Hk].
  apply Z.eqb_eq in Hk. now split.
Qed.

Lemma equal_range_In k s e : In e s -> fst e = k -> In e (equal_range k s).
Proof.
  intros He Hk. unfold equal_range. apply filter_In. split; [assumption|].
  now apply Z.eqb_eq.
Qed.

Lemma equal_range_absent k s :
  (forall e, In e s -> fst e <> k) -> equal_range k s = [].
Proof.
  induction s as [|e t IH]; simpl; intros H; [reflexivity|].
  destruct (Z.eqb_spec (fst e) k) as [Hk|_].
  - exfalso. apply (H e); auto.
  - apply IH. intros e' He'. apply H. now right.
Qed.

Lemma find_In k s e : find k s = Some e -> In e s /\ fst e = k.
Proof.
  rewrite find_equal_range. intros H.
  destruct (equal_range k s) as [|e' r] eqn:E; [discriminate|].
  injection H as ->.
  destruct (equal_range_key k s e) as [Hk He]; [rewrite E; now left|].
  now split.
Qed.

Lemma find_insert_other k v s :
  k <> fst v -> find k (insert v s) = find k s.
Proof.
  intros Hk. now rewrite !find_equal_range, equal_range_insert_other.
Qed.

(** An insertion does not displace the pair [find] gave before it. *)
Lemma find_insert_hit k v s e :
  ordered s = true ->
  find k s = Some e ->
  find k (insert v s) = Some e.
Proof.
  intros Hord. rewrite !find_equal_range, equal_range_insert by assumption.
  destruct (equal_range k s); [discriminate|]. intros H. exact H.
Qed.

Lemma find_present k s e : In e s -> fst e = k -> exists e', find k s = Some e'.
Proof.
  intros He Hk. rewrite find_equal_range.
  pose proof (equal_range_In k s e He Hk) as Hin.
  destruct (equal_range k s) as [|e' r]; [destruct Hin|].
  now exists e'.
Qed.

Lemma ordered_insert_range src dst :
  ordered dst = true -> ordered (insert_range src dst) = true.
Proof.
  unfold insert_range. revert dst.
  induction src as [|e r IH]; simpl; intros dst H; [assumption|].
  apply IH. now apply ordered_insert.
Qed.

(** A range insertion puts the source's pairs, in the source's order,
    behind the destination's pairs of the same key. *)
Lemma equal_range_insert_range k src dst :
  ordered dst = true ->
  equal_range k (insert_range src dst) = equal_range k dst ++ equal_range k src.
Proof.
  unfold insert_range. revert dst.
  induction src as [|e r IH]; intros dst H.
  - simpl. now rewrite app_nil_r.
  - cbn [fold_left]. rewrite IH by now apply ordered_insert.
    rewrite equal_range_insert by assumption.
    rewrite <- app_assoc. f_equal.
    change (e :: r) with ([e] ++ r). unfold equal_range. apply eq_sym, filter_app.
Qed.

(** Insertions under different keys can be swapped. *)
Lemma insert_comm v e s :
  fst v <> fst e ->
  insert v (insert e s) = insert e (insert v s).
Proof.
  intros Hne. induction s as [|x t IH]; cbn.
  - destruct (Z.ltb_spec (fst v) (fst e)), (Z.ltb_spec (fst e) (fst v));
      try reflexivity; lia.
  - destruct (Z.ltb_spec (fst e) (fst x)) as [Hex|Hex],
             (Z.ltb_spec (fst v) (fst x)) as [Hvx|Hvx]; cbn.
    + destruct (Z.ltb_spec (fst v) (fst e)), (Z.ltb_spec (fst e) (fst v));
        try lia.
      * destruct (Z.ltb_spec (fst e) (fst x)); [reflexivity|lia].
      * destruct (Z.ltb_spec (fst v) (fst x)); [reflexivity|lia].
    + destruct (Z.ltb_spec (fst v) (fst e)); [lia|].
      destruct (Z.ltb_spec (fst e) (fst x)); [|lia].
      destruct (Z.ltb_spec (fst v) (fst x)); [lia|]. reflexivity.
    + destruct (Z.ltb_spec (fst e) (fst v)); [lia|].
      destruct (Z.ltb_spec (fst v) (fst x)); [|lia].
      destruct (Z.ltb_spec (fst e) (fst x)); [lia|]. reflexivity.
    + destruct (Z.ltb_spec (fst v) (fst x)); [lia|].
      destruct (Z.ltb_spec (fst e) (fst x)); [lia|]. now rewrite IH.
Qed.

Lemma insert_range_length src dst :
  List.length (insert_range src dst) = (List.length dst + List.length src)%nat.
Proof.
  unfold insert_range. revert dst.
  induction src as [|e r IH]; simpl; intros dst; [lia|].
  rewrite IH, insert_length. lia.
Qed.

Lemma insert_range_Forall (P : u32 * TYPE -> Prop) src dst :
  Forall P src -> Forall P dst -> Forall P (insert_range src dst).
Proof.
  unfold insert_range. revert dst.
  induction src as [|e r IH]; simpl; intros dst Hs Hd; [assumption|].
  inversion Hs; subst. apply IH; [assumption|]. now apply insert_Forall.
Qed.

End StoreFacts.

(** ** References to the members of a database *)

Lemma Kind_eq_dec (K K' : Kind) : {K = K'} + {K <> K'}.
Proof. decide equality. Defined.

Lemma load_save K (s : PrimitiveStore (TYPE_of K)) db :
  load (GetPrimitiveStore K) (save (GetPrimitiveStore K) s db) = s.
Proof. destruct K; reflexivity. Qed.

Lemma load_save_other K K' (s : PrimitiveStore (TYPE_of K)) db :
  K' <> K ->
  load (GetPrimitiveStore K') (save (GetPrimitiveStore K) s db) =
  load (GetPrimitiveStore K') db.
Proof. destruct K, K'; intros H; try reflexivity; congruence. Qed.

Lemma unnamed_save K (s : PrimitiveStore (TYPE_of K)) db :
  m_UnnamedFields (save (GetPrimitiveStore K) s db) = m_UnnamedFields db.
Proof. destruct K; reflexivity. Qed.

Lemma names_save K (s : PrimitiveStore (TYPE_of K)) db :
  m_Names (save (GetPrimitiveStore K) s db) = m_Names db.
Proof. destruct K; reflexivity. Qed.

Lemma load_save_unnamed K (s : PrimitiveStore Field) db :
  load (GetPrimitiveStore K) (save ref_UnnamedFields s db) =
  load (GetPrimitiveStore K) db.
Proof. destruct K; reflexivity. Qed.

Lemma save_comm K K' (s : PrimitiveStore (TYPE_of K)) (s' : PrimitiveStore (TYPE_of K')) db :
  K <> K' ->
  save (GetPrimitiveStore K) s (save (GetPrimitiveStore K') s' db) =
  save (GetPrimitiveStore K') s' (save (GetPrimitiveStore K) s db).
Proof. destruct K, K'; intros H; try reflexivity; congruence. Qed.

Lemma save_unnamed_comm K (s : PrimitiveStore (TYPE_of K)) (u : PrimitiveStore Field) db :
  save (GetPrimitiveStore K) s (save ref_UnnamedFields u db) =
  save ref_UnnamedFields u (save (GetPrimitiveStore K) s db).
Proof. destruct K; reflexivity. Qed.

(** The eight store members are reached through eight independent
    references: what is written through one is read back through it, and
    the other seven stores and the name map read as before. *)
Theorem store_references_independent :
  (forall K s db, load (GetPrimitiveStore K) (save (GetPrimitiveStore K) s db) = s) /\
  (forall K K' s db,
      K' <> K ->
      load (GetPrimitiveStore K') (save (GetPrimitiveStore K) s db) =
      load (GetPrimitiveStore K') db) /\
  (forall K s db,
      m_UnnamedFields (save (GetPrimitiveStore K) s db) = m_UnnamedFields db /\
      m_Names (save (GetPrimitiveStore K) s db) = m_Names db) /\
  (forall u db,
      m_UnnamedFields (save ref_UnnamedFields u db) = u /\
      m_Names (save ref_UnnamedFields u db) = m_Names db /\
      forall K, load (GetPrimitiveStore K) (save ref_UnnamedFields u db) =
                load (GetPrimitiveStore K) db).
Proof.
  split; [exact load_save|].
  split; [exact load_save_other|].
  split.
  - intros K s db. split; [apply unnamed_save|apply names_save].
  - intros u db. split; [reflexivity|]. split; [reflexivity|].
    intros K. apply load_save_unnamed.
Qed.

(** ** The equality operators *)

(** C8.  Two enumeration constants compare equal exactly when their name,
    parent and value are equal; two functions compare equal exactly when
    their name, parent and unique_id are equal. *)
Theorem EnumConstant_Function_eq_spec :
  (forall lhs rhs : EnumConstant,
      EnumConstant_eq lhs rhs = true <->
      name lhs = name rhs /\ parent lhs = parent rhs /\ value lhs = value rhs) /\
  (forall lhs rhs : Function,
      Function_eq lhs rhs = true <->
      name lhs = name rhs /\ parent lhs = parent rhs /\
      unique_id lhs = unique_id rhs).
Proof.
  split; intros lhs rhs.
  - unfold EnumConstant_eq.
    rewrite !andb_true_iff, !Name_eqb_eq, Z.eqb_eq. tauto.
  - unfold Function_eq.
    rewrite !andb_true_iff, !Name_eqb_eq, Z.eqb_eq. tauto.
Qed.

(** C9.  Two fields compare equal exactly when name, parent, type,
    modifier, is_const, offset and parent_unique_id are all equal. *)
Theorem Field_eq_spec (lhs rhs : Field) :
  Field_eq lhs rhs = true <->
  name lhs = name rhs /\ parent lhs = parent rhs /\ type lhs = type rhs /\
  modifier lhs = modifier rhs /\ is_const lhs = is_const rhs /\
  offset lhs = offset rhs /\ parent_unique_id lhs = parent_unique_id rhs.
Proof.
  unfold Field_eq.
  rewrite !andb_true_iff, !Name_eqb_eq, Modifier_eqb_eq, eqb_true_iff, !Z.eqb_eq.
  tauto.
Qed.

Lemma Name_eqb_refl (n : Name) : Name_eqb n n = true.
Proof. now apply Name_eqb_eq. Qed.

Lemma Name_eqb_sym (a b : Name) : Name_eqb a b = Name_eqb b a.
Proof.
  destruct (Name_eqb b a) eqn:E.
  - apply Name_eqb_eq in E. subst. apply Name_eqb_refl.
  - apply Name_eqb_neq in E. apply Name_eqb_neq. congruence.
Qed.

Lemma Modifier_eqb_sym (a b : Modifier) : Modifier_eqb a b = Modifier_eqb b a.
Proof. destruct a, b; reflexivity. Qed.

Lemma bool_eqb_sym (a b : bool) : Bool.eqb a b = Bool.eqb b a.
Proof. destruct a, b; reflexivity. Qed.

Lemma Field_eq_true (lhs rhs : Field) :
  Field_eq lhs rhs = true ->
  name lhs = name rhs /\ parent lhs = parent rhs /\ type lhs = type rhs /\
  modifier lhs = modifier rhs /\ is_const lhs = is_const rhs /\
  offset lhs = offset rhs /\ parent_unique_id lhs = parent_unique_id rhs.
Proof.
  unfold Field_eq.
  rewrite !andb_true_iff, !Name_eqb_eq, Modifier_eqb_eq, eqb_true_iff, !Z.eqb_eq.
  tauto.
Qed.

Lemma EnumConstant_eq_true (lhs rhs : EnumConstant) :
  EnumConstant_eq lhs rhs = true ->
  name lhs = name rhs /\ parent lhs = parent rhs /\ value lhs = value rhs.
Proof.
  unfold EnumConstant_eq.
  rewrite !andb_true_iff, !Name_eqb_eq, Z.eqb_eq. tauto.
Qed.

Lemma Function_eq_true (lhs rhs : Function) :
  Function_eq lhs rhs = true ->
  name lhs = name rhs /\ parent lhs = parent rhs /\ unique_id lhs = unique_id rhs.
Proof.
  unfold Function_eq.
  rewrite !andb_true_iff, !Name_eqb_eq, Z.eqb_eq. tauto.
Qed.

(** The three equality operators are equivalence relations: each value
    equals itself, the operands can be swapped, and equality carries over
    a common middle value. *)
Theorem equality_operators_equivalences :
  (forall a : EnumConstant, EnumConstant_eq a a = true) /\
  (forall a b : EnumConstant, EnumConstant_eq a b = EnumConstant_eq b a) /\
  (forall a b c : EnumConstant,
      EnumConstant_eq a b = true -> EnumConstant_eq b c = true ->
      EnumConstant_eq a c = true) /\
  (forall a : Function, Function_eq a a = true) /\
  (forall a b : Function, Function_eq a b = Function_eq b a) /\
  (forall a b c : Function,
      Function_eq a b = true -> Function_eq b c = true -> Function_eq a c = true) /\
  (forall a : Field, Field_eq a a = true) /\
  (forall a b : Field, Field_eq a b = Field_eq b a) /\
  (forall a b c : Field,
      Field_eq a b = true -> Field_eq b c = true -> Field_eq a c = true).
Proof.
  repeat split.
  - intros a. unfold EnumConstant_eq. now rewrite !Name_eqb_refl, Z.eqb_refl.
  - intros a b. unfold EnumConstant_eq.
    now rewrite (Name_eqb_sym (name a)), (Name_eqb_sym (parent a)), (Z.eqb_sym (value a)).
  - intros a b c Hab Hbc.
    apply EnumConstant_eq_true in Hab. apply EnumConstant_eq_true in Hbc.
    destruct Hab as [Hn [Hp Hv]], Hbc as [Hn' [Hp' Hv']].
    unfold EnumConstant_eq. rewrite Hn, Hn', Hp, Hp', Hv, Hv'.
    now rewrite !Name_eqb_refl, Z.eqb_refl.
  - intros a. unfold Function_eq. now rewrite !Name_eqb_refl, Z.eqb_refl.
  - intros a b. unfold Function_eq.
    now rewrite (Name_eqb_sym (name a)), (Name_eqb_sym (parent a)),
      (Z.eqb_sym (unique_id a)).
  - intros a b c Hab Hbc.
    apply Function_eq_true in Hab. apply Function_eq_true in Hbc.
    destruct Hab as [Hn [Hp Hv]], Hbc as [Hn' [Hp' Hv']].
    unfold Function_eq. rewrite Hn, Hn', Hp, Hp', Hv, Hv'.
    now rewrite !Name_eqb_refl, Z.eqb_refl.
  - intros a. unfold Field_eq.
    rewrite !Name_eqb_refl, !Z.eqb_refl, eqb_reflx.
    now destruct (modifier a).
  - intros a b. unfold Field_eq.
    now rewrite (Name_eqb_sym (name a)), (Name_eqb_sym (parent a)),
      (Name_eqb_sym (type a)), (Modifier_eqb_sym (modifier a)),
      (bool_eqb_sym (is_const a)), (Z.eqb_sym (offset a)),
      (Z.eqb_sym (parent_unique_id a)).
  - intros a b c Hab Hbc.
    apply Field_eq_true in Hab. apply Field_eq_true in Hbc.
    destruct Hab as [Hn [Hp [Ht [Hm [Hc [Ho Hu]]]]]].
    destruct Hbc as [Hn' [Hp' [Ht' [Hm' [Hc' [Ho' Hu']]]]]].
    unfold Field_eq.
    rewrite Hn, Hn', Hp, Hp', Ht, Ht', Hm, Hm', Hc, Hc', Ho, Ho', Hu, Hu'.
    rewrite !Name_eqb_refl, !Z.eqb_refl, eqb_reflx.
    now destruct (modifier c).
Qed.


(** ** The unnamed primitive store *)

(** C4.  For every kind but Field the request for the unnamed store fails
    the assertion, so a request that returns a store is the Field one; the
    Field request returns the reference to [m_UnnamedFields]. *)
Theorem GetUnnamedPrimitiveStore_Field_only :
  (forall K, K <> KIND_FIELD ->
     GetUnnamedPrimitiveStore K = AssertionFailed no_unnamed_store) /\
  (forall K r, GetUnnamedPrimitiveStore K = Returned r -> K = KIND_FIELD) /\
  GetUnnamedPrimitiveStore KIND_FIELD = Returned ref_UnnamedFields /\
  (forall db, load ref_UnnamedFields db = m_UnnamedFields db).
Proof.
  split; [|split; [|split]].
  - intros K HK. destruct K; try reflexivity. congruence.
  - intros K r H. destruct K; try discriminate H. reflexivity.
  - reflexivity.
  - reflexivity.
Qed.

(** ** The member functions *)

Section MemberFacts.
Variable HashNameString : string -> u32.
Variable GetNoName : Name.

Local Abbreviation AddPrimitive := (@AddPrimitive GetNoName).
Local Abbreviation AddPrimitives := (@AddPrimitives GetNoName).
Local Abbreviation GetFirstPrimitive := (GetFirstPrimitive HashNameString).
Local Abbreviation indexed := (indexed GetNoName).
Local Abbreviation named_entry := (@named_entry GetNoName).
Local Abbreviation unnamed_entry := (unnamed_entry GetNoName).

Lemma AddPrimitive_named K (prim : TYPE_of K) h db :
  name (base prim) <> GetNoName ->
  name (base prim) = NameAt h ->
  AddPrimitive prim db =
  Returned (tt, save (GetPrimitiveStore K)
                  (insert (h, prim) (load (GetPrimitiveStore K) db)) db).
Proof.
  intros Hno Hname. unfold crdb.AddPrimitive.
  apply Name_eqb_neq in Hno. rewrite Hno.
  unfold bind, deref, modify. now rewrite Hname.
Qed.

Lemma AddPrimitive_unnamed_Field (f : Field) p db :
  name f = GetNoName ->
  parent f = NameAt p ->
  AddPrimitive (K:=KIND_FIELD) f db =
  Returned (tt, save ref_UnnamedFields (insert (p, f) (m_UnnamedFields db)) db).
Proof.
  intros Hno Hparent. unfold crdb.AddPrimitive. cbn [base].
  apply Name_eqb_eq in Hno. rewrite Hno.
  unfold bind, lift, deref, modify. cbn. now rewrite Hparent.
Qed.

Lemma AddPrimitive_unnamed_other K (prim : TYPE_of K) db :
  K <> KIND_FIELD ->
  name (base prim) = GetNoName ->
  AddPrimitive prim db = AssertionFailed no_unnamed_store.
Proof.
  intros HK Hno. unfold crdb.AddPrimitive.
  apply Name_eqb_eq in Hno. rewrite Hno.
  destruct K; try reflexivity. congruence.
Qed.

(** [find] on the store of a kind, as [GetFirstPrimitive] reports it. *)
Lemma GetFirstPrimitive_find K text db :
  GetFirstPrimitive K text db =
  Returned (option_map snd (find (HashNameString text) (load (GetPrimitiveStore K) db)), db).
Proof.
  unfold crdb.GetFirstPrimitive, bind, read, ret.
  destruct (find _ _); reflexivity.
Qed.

(** What a call of [AddPrimitive] that returns has done. *)
Lemma AddPrimitive_Returned K (prim : TYPE_of K) db db' :
  AddPrimitive prim db = Returned (tt, db') ->
  (name (base prim) <> GetNoName /\
   exists h, name (base prim) = NameAt h /\
     db' = save (GetPrimitiveStore K)
             (insert (h, prim) (load (GetPrimitiveStore K) db)) db) \/
  (name (base prim) = GetNoName /\ K = KIND_FIELD /\
   exists p (f : Field), base (K:=KIND_FIELD) f = base prim /\
     parent (base prim) = NameAt p /\
     db' = save ref_UnnamedFields (insert (p, f) (m_UnnamedFields db)) db).
Proof.
  unfold crdb.AddPrimitive.
  destruct (Name_eqb (name (base prim)) GetNoName) eqn:E.
  - apply Name_eqb_eq in E. intros H. right. split; [assumption|].
    destruct K; try discriminate H. split; [reflexivity|].
    unfold bind, lift, deref, modify in H. cbn in H.
    destruct (parent prim) as [|p] eqn:Hp; [discriminate H|].
    cbn in H. injection H as <-.
    exists p, prim. cbn. rewrite Hp. auto.
  - apply Name_eqb_neq in E. intros H. left. split; [assumption|].
    unfold bind, deref, modify in H.
    destruct (name (base prim)) as [|h] eqn:Hn; [discriminate H|].
    cbn in H. injection H as <-. exists h. auto.
Qed.

Lemma save_save K (s s' : PrimitiveStore (TYPE_of K)) db :
  save (GetPrimitiveStore K) s' (save (GetPrimitiveStore K) s db) =
  save (GetPrimitiveStore K) s' db.
Proof. destruct K; reflexivity. Qed.

(** A run of additions under one name is a range insertion into the
    named store of the kind. *)
Lemma AddPrimitives_named K (prims : list (TYPE_of K)) h db :
  Forall (fun prim => name (base prim) <> GetNoName /\
                      name (base prim) = NameAt h) prims ->
  AddPrimitives prims db =
  Returned (tt, save (GetPrimitiveStore K)
                  (insert_range (map (pair h) prims)
                     (load (GetPrimitiveStore K) db)) db).
Proof.
  revert db. induction prims as [|prim rest IH]; intros db H.
  - cbn. unfold ret. f_equal. f_equal. destruct K, db; reflexivity.
  - inversion H as [|? ? [Hno Hname] Hrest]; subst.
    cbn [crdb.AddPrimitives]. unfold bind.
    rewrite (AddPrimitive_named K prim h db Hno Hname).
    rewrite (IH _ Hrest), load_save, save_save. reflexivity.
Qed.

Lemma equal_range_pairs {TYPE} h (l : list TYPE) :
  equal_range h (map (pair h) l) = map (pair h) l.
Proof.
  induction l as [|x l IH]; cbn; [reflexivity|].
  rewrite Z.eqb_refl. fold (equal_range h (map (pair h) l)). now rewrite IH.
Qed.

(** Primitives added under one name are found under it in the order of
    their insertion, behind the ones that were there before. *)
Lemma AddPrimitives_insertion_order K (prims : list (TYPE_of K)) h db :
  ordered (load (GetPrimitiveStore K) db) = true ->
  Forall (fun prim => name (base prim) <> GetNoName /\
                      name (base prim) = NameAt h) prims ->
  exists db',
    AddPrimitives prims db = Returned (tt, db') /\
    equal_range h (load (GetPrimitiveStore K) db') =
    equal_range h (load (GetPrimitiveStore K) db) ++ map (pair h) prims.
Proof.
  intros Hord H. eexists. split; [exact (AddPrimitives_named K prims h db H)|].
  rewrite load_save, equal_range_insert_range by assumption.
  now rewrite equal_range_pairs.
Qed.

(** The invariant [indexed] holds of a database without primitives and
    every addition keeps it. *)
Lemma indexed_no_primitives names : indexed (no_primitives names).
Proof. split; [intros K; destruct K|]; constructor. Qed.

Lemma indexed_AddPrimitive K (prim : TYPE_of K) db db' :
  indexed db ->
  AddPrimitive prim db = Returned (tt, db') ->
  indexed db'.
Proof.
  intros [Hnamed Hunnamed] H.
  apply AddPrimitive_Returned in H.
  destruct H as [[Hno [h [Hname ->]]]|[Hno [-> [p [f [Hf [Hp ->]]]]]]].
  - split.
    + intros K'. destruct (Kind_eq_dec K' K) as [->|HK].
      * rewrite load_save. apply insert_Forall; [|apply Hnamed].
        split; cbn; assumption.
      * rewrite load_save_other by assumption. apply Hnamed.
    + rewrite unnamed_save. assumption.
  - split.
    + intros K'. rewrite load_save_unnamed. apply Hnamed.
    + cbn. apply insert_Forall; [|assumption].
      split; cbn.
      * change (name (base (K:=KIND_FIELD) f) = GetNoName). now rewrite Hf.
      * change (parent (base (K:=KIND_FIELD) f) = NameAt p). now rewrite Hf.
Qed.

Lemma well_ordered_no_primitives names : well_ordered (no_primitives names).
Proof. split; [intros K; destruct K|]; reflexivity. Qed.

Lemma well_ordered_AddPrimitive K (prim : TYPE_of K) db db' :
  well_ordered db ->
  AddPrimitive prim db = Returned (tt, db') ->
  well_ordered db'.
Proof.
  intros [Hnamed Hunnamed] H.
  apply AddPrimitive_Returned in H.
  destruct H as [[Hno [h [Hname ->]]]|[Hno [-> [p [f [Hf [Hp ->]]]]]]].
  - split.
    + intros K'. destruct (Kind_eq_dec K' K) as [->|HK].
      * rewrite load_save. apply ordered_insert, Hnamed.
      * rewrite load_save_other by assumption. apply Hnamed.
    + rewrite unnamed_save. assumption.
  - split.
    + intros K'. rewrite load_save_unnamed. apply Hnamed.
    + cbn. now apply ordered_insert.
Qed.


(** *** Insertion *)

(** C1, as amended.  A Field whose name is the reserved no-name and whose
    parent can be dereferenced is inserted into the unnamed Field store
    under the hash of its parent; a primitive of any other type whose name
    is the reserved no-name makes [AddPrimitive] fail its assertion; a
    primitive of any type whose name is another, dereferenceable name is
    inserted into the named store of its type under the hash of its
    name. *)
Theorem AddPrimitive_dispatch :
  (forall (f : Field) p db,
      name f = GetNoName ->
      parent f = NameAt p ->
      AddPrimitive (K:=KIND_FIELD) f db =
      Returned (tt, save ref_UnnamedFields
                      (insert (p, f) (m_UnnamedFields db)) db)) /\
  (forall K (prim : TYPE_of K) db,
      K <> KIND_FIELD ->
      name (base prim) = GetNoName ->
      AddPrimitive prim db = AssertionFailed no_unnamed_store) /\
  (forall K (prim : TYPE_of K) h db,
      name (base prim) <> GetNoName ->
      name (base prim) = NameAt h ->
      AddPrimitive prim db =
      Returned (tt, save (GetPrimitiveStore K)
                      (insert (h, prim) (load (GetPrimitiveStore K) db)) db)).
Proof.
  split; [|split].
  - exact AddPrimitive_unnamed_Field.
  - exact AddPrimitive_unnamed_other.
  - exact AddPrimitive_named.
Qed.

(** C2.  Adding the same named primitive [N >= 1] times to a store of
    its kind always returns; the entries found under the hash of its name
    are the earlier ones followed by [N] copies of it, nothing is
    deduplicated, [GetFirstPrimitive] returns the earliest entry of the
    key, and when the key had no entry before there are exactly [N] of
    them and the first is the primitive. *)
Theorem AddPrimitive_N_times K (prim : TYPE_of K) h text (N : nat) db :
  ordered (load (GetPrimitiveStore K) db) = true ->
  name (base prim) <> GetNoName ->
  name (base prim) = NameAt h ->
  HashNameString text = h ->
  (1 <= N)%nat ->
  exists db',
    AddPrimitives (repeat prim N) db = Returned (tt, db') /\
    equal_range h (load (GetPrimitiveStore K) db') =
      equal_range h (load (GetPrimitiveStore K) db) ++ repeat (h, prim) N /\
    List.length (load (GetPrimitiveStore K) db') =
      (List.length (load (GetPrimitiveStore K) db) + N)%nat /\
    GetFirstPrimitive K text db' =
      Returned (option_map snd
                  (hd_error (equal_range h (load (GetPrimitiveStore K) db)
                             ++ repeat (h, prim) N)), db') /\
    (equal_range h (load (GetPrimitiveStore K) db) = [] ->
     equal_range h (load (GetPrimitiveStore K) db') = repeat (h, prim) N /\
     List.length (equal_range h (load (GetPrimitiveStore K) db')) = N /\
     GetFirstPrimitive K text db' = Returned (Some prim, db')).
Proof.
  intros Hord Hno Hname Htext HN.
  assert (Hall : Forall (fun prim => name (base prim) <> GetNoName /\
                                     name (base prim) = NameAt h)
                   (repeat prim N)).
  { apply Forall_forall. intros x Hx. apply repeat_spec in Hx. now subst x. }
  eexists. split; [exact (AddPrimitives_named K _ h db Hall)|].
  rewrite load_save, map_repeat.
  assert (Hrange :
    equal_range h (insert_range (repeat (h, prim) N) (load (GetPrimitiveStore K) db)) =
    equal_range h (load (GetPrimitiveStore K) db) ++ repeat (h, prim) N).
  { rewrite equal_range_insert_range by assumption.
    now rewrite <- (map_repeat prim N (pair h)), equal_range_pairs. }
  split; [exact Hrange|].
  split; [now rewrite insert_range_length, repeat_length|].
  split.
  - rewrite GetFirstPrimitive_find, load_save, Htext, find_equal_range, Hrange.
    reflexivity.
  - intros Hnone. rewrite Hrange, Hnone. cbn [app].
    split; [reflexivity|]. split; [apply repeat_length|].
    rewrite GetFirstPrimitive_find, load_save, Htext, find_equal_range, Hrange, Hnone.
    destruct N; [lia|]. reflexivity.
Qed.

(** C10.  A call of [AddPrimitive] that returns leaves the name map and
    the named stores of all other kinds as they were; it leaves the
    unnamed Field store as it was when the primitive is named, and every
    named store as it was when the primitive is unnamed.  The call does
    return for a named primitive, with the primitive in the named store of
    its kind, and for an unnamed Field, with one more unnamed field. *)
Theorem AddPrimitive_frame K (prim : TYPE_of K) db :
  (forall db',
      AddPrimitive prim db = Returned (tt, db') ->
      m_Names db' = m_Names db /\
      (forall K', K' <> K ->
         load (GetPrimitiveStore K') db' = load (GetPrimitiveStore K') db) /\
      (name (base prim) <> GetNoName ->
         m_UnnamedFields db' = m_UnnamedFields db) /\
      (name (base prim) = GetNoName ->
         forall K', load (GetPrimitiveStore K') db' = load (GetPrimitiveStore K') db)) /\
  (forall h,
      name (base prim) <> GetNoName ->
      name (base prim) = NameAt h ->
      exists db',
        AddPrimitive prim db = Returned (tt, db') /\
        load (GetPrimitiveStore K) db' = insert (h, prim) (load (GetPrimitiveStore K) db)) /\
  (forall p,
      K = KIND_FIELD ->
      name (base prim) = GetNoName ->
      parent (base prim) = NameAt p ->
      exists db',
        AddPrimitive prim db = Returned (tt, db') /\
        List.length (m_UnnamedFields db') = S (List.length (m_UnnamedFields db))).
Proof.
  split; [|split].
  - intros db' H. apply AddPrimitive_Returned in H.
    destruct H as [[Hno [h [Hname ->]]]|[Hno [-> [p [f [Hf [Hp ->]]]]]]].
    + split; [apply names_save|].
      split; [intros K' HK; now apply load_save_other|].
      split; [intros _; apply unnamed_save|].
      intros Hyes. contradiction.
    + split; [reflexivity|].
      split; [intros K' _; apply load_save_unnamed|].
      split; [intros Hnot; contradiction|].
      intros _ K'. apply load_save_unnamed.
  - intros h Hno Hname. eexists.
    split; [exact (AddPrimitive_named K prim h db Hno Hname)|].
    apply load_save.
  - intros p HK. revert prim. rewrite HK. intros f Hno Hparent. eexists.
    split; [exact (AddPrimitive_unnamed_Field f p db Hno Hparent)|].
    cbn. apply insert_length.
Qed.

(** *** Lookup *)

(** C6.  When no entry of the kind's named store is keyed by the hash of
    the name string, [GetFirstPrimitive] returns the null pointer: the
    call returns, it neither fails an assertion nor stops. *)
Theorem GetFirstPrimitive_miss K text db :
  (forall e, In e (load (GetPrimitiveStore K) db) -> fst e <> HashNameString text) ->
  GetFirstPrimitive K text db = Returned (None, db).
Proof.
  intros H. rewrite GetFirstPrimitive_find, find_equal_range.
  now rewrite equal_range_absent.
Qed.

(** C7.  [GetFirstPrimitive] returns with the database it was called on:
    every member, the name map among them, is as before, whether or not
    the name string was ever interned. *)
Theorem GetFirstPrimitive_const K text db :
  exists r,
    GetFirstPrimitive K text db = Returned (r, db) /\
    forall r' db',
      GetFirstPrimitive K text db = Returned (r', db') ->
      db' = db /\ m_Names db' = m_Names db.
Proof.
  eexists. split; [apply GetFirstPrimitive_find|].
  intros r' db' H. rewrite GetFirstPrimitive_find in H.
  injection H as _ <-. now split.
Qed.

(** C5.  In a database filled through [AddPrimitive], a Field whose name
    is the reserved no-name and whose parent is [NameAt p] is inserted by
    [AddPrimitive] so that the unnamed store yields it under [p] and
    under no other key, the named Field store does not hold it under any
    key, and [GetFirstPrimitive] does not return it for any name
    string. *)
Theorem unnamed_Field_by_parent_only (f : Field) p db :
  indexed db ->
  name f = GetNoName ->
  parent f = NameAt p ->
  exists db',
    AddPrimitive (K:=KIND_FIELD) f db = Returned (tt, db') /\
    In (p, f) (equal_range p (m_UnnamedFields db')) /\
    (forall k, In (k, f) (equal_range k (m_UnnamedFields db')) -> k = p) /\
    (forall k, ~ In (k, f) (equal_range k (m_Fields db'))) /\
    (forall k, ~ In (k, f) (m_Fields db')) /\
    (forall text, GetFirstPrimitive KIND_FIELD text db' <> Returned (Some f, db')).
Proof.
  intros [Hnamed Hunnamed] Hno Hparent.
  eexists. split; [exact (AddPrimitive_unnamed_Field f p db Hno Hparent)|].
  assert (Hfields : forall k, ~ In (k, f) (m_Fields db)).
  { intros k Hin. specialize (Hnamed KIND_FIELD). cbn in Hnamed.
    rewrite Forall_forall in Hnamed. destruct (Hnamed _ Hin) as [Hne _].
    apply Hne. exact Hno. }
  split.
  { cbn. apply equal_range_In; [|reflexivity]. apply insert_In. now left. }
  split.
  { cbn. intros k Hin. apply equal_range_key in Hin. destruct Hin as [_ Hin].
    apply insert_In in Hin. destruct Hin as [Heq|Hin]; [congruence|].
    rewrite Forall_forall in Hunnamed. destruct (Hunnamed _ Hin) as [_ Hk].
    cbn in Hk. congruence. }
  split.
  { cbn. intros k Hin. apply equal_range_key in Hin. now apply (Hfields k). }
  split; [exact Hfields|].
  intros text H. rewrite GetFirstPrimitive_find in H.
  injection H as H.
  change (load (GetPrimitiveStore KIND_FIELD) _) with (m_Fields db) in H.
  destruct (find (HashNameString text) (m_Fields db)) as [[k g]|] eqn:E;
    [|discriminate H].
  cbn in H. injection H as ->. apply find_In in E.
  now apply (Hfields k).
Qed.

(** *** Merging *)

Lemma Merge_load K target other target' :
  Merge other target = Returned (tt, target') ->
  load (GetPrimitiveStore K) target' =
  insert_range (load (GetPrimitiveStore K) other) (load (GetPrimitiveStore K) target).
Proof.
  unfold Merge, bind, modify. cbn. intros H. injection H as <-.
  destruct K; reflexivity.
Qed.

Lemma Merge_unnamed target other target' :
  Merge other target = Returned (tt, target') ->
  m_UnnamedFields target' =
  insert_range (m_UnnamedFields other) (m_UnnamedFields target).
Proof.
  unfold Merge, bind, modify. cbn. intros H. now injection H as <-.
Qed.

(** Merging keeps both invariants. *)
Lemma well_ordered_Merge target other target' :
  well_ordered target ->
  Merge other target = Returned (tt, target') ->
  well_ordered target'.
Proof.
  intros [Hnamed Hunnamed] H. split.
  - intros K. rewrite (Merge_load K _ _ _ H). apply ordered_insert_range, Hnamed.
  - rewrite (Merge_unnamed _ _ _ H). now apply ordered_insert_range.
Qed.

Lemma indexed_Merge target other target' :
  indexed target ->
  indexed other ->
  Merge other target = Returned (tt, target') ->
  indexed target'.
Proof.
  intros [Hnamed Hunnamed] [Hnamed' Hunnamed'] H. split.
  - intros K. rewrite (Merge_load K _ _ _ H).
    apply insert_range_Forall; [apply Hnamed'|apply Hnamed].
  - rewrite (Merge_unnamed _ _ _ H). now apply insert_range_Forall.
Qed.

(** C3.  Merging [other] into [target] returns; afterwards, for every
    kind and every key, the entries of the target under the key are its
    earlier entries followed by the entries of [other], in the order each
    side had them; no entry is dropped and none is deduplicated;
    [GetFirstPrimitive] answers from that sequence; [other] is as it
    was. *)
Theorem Merge_union target other :
  well_ordered target ->
  exists target',
    Merge_call target other = Returned (target', other) /\
    (forall K k,
        equal_range k (load (GetPrimitiveStore K) target') =
        equal_range k (load (GetPrimitiveStore K) target) ++
        equal_range k (load (GetPrimitiveStore K) other)) /\
    (forall k,
        equal_range k (m_UnnamedFields target') =
        equal_range k (m_UnnamedFields target) ++
        equal_range k (m_UnnamedFields other)) /\
    (forall K,
        List.length (load (GetPrimitiveStore K) target') =
        (List.length (load (GetPrimitiveStore K) target) +
         List.length (load (GetPrimitiveStore K) other))%nat) /\
    List.length (m_UnnamedFields target') =
      (List.length (m_UnnamedFields target) +
       List.length (m_UnnamedFields other))%nat /\
    (forall K text,
        GetFirstPrimitive K text target' =
        Returned (option_map snd
                    (hd_error
                       (equal_range (HashNameString text)
                          (load (GetPrimitiveStore K) target) ++
                        equal_range (HashNameString text)
                          (load (GetPrimitiveStore K) other))), target')).
Proof.
  intros [Hnamed Hunnamed].
  destruct (Merge other target) as [[[] target']| |] eqn:E;
    try (unfold Merge, bind, modify in E; discriminate E).
  exists target'. unfold Merge_call. rewrite E.
  assert (Hrange : forall K k,
    equal_range k (load (GetPrimitiveStore K) target') =
    equal_range k (load (GetPrimitiveStore K) target) ++
    equal_range k (load (GetPrimitiveStore K) other)).
  { intros K k. rewrite (Merge_load K _ _ _ E).
    now apply equal_range_insert_range. }
  split; [reflexivity|].
  split; [exact Hrange|].
  split.
  { intros k. rewrite (Merge_unnamed _ _ _ E).
    now apply equal_range_insert_range. }
  split.
  { intros K. rewrite (Merge_load K _ _ _ E). apply insert_range_length. }
  split.
  { rewrite (Merge_unnamed _ _ _ E). apply insert_range_length. }
  intros K text.
  now rewrite GetFirstPrimitive_find, find_equal_range, Hrange.
Qed.

(** *** How a call of [AddPrimitive] ends *)

Local Abbreviation built := (built GetNoName).

Ltac outcome_case :=
  try solve
    [ discriminate
    | tauto
    | congruence
    | intros [? ?]; (discriminate || contradiction || congruence)
    | intros ? H; injection H as <-; reflexivity
    | intros _; eexists; reflexivity
    | intros _; left; split; [assumption|discriminate]
    | intros _; right; repeat split; (assumption || discriminate || reflexivity)
    | intros [[? ?]|[? [? ?]]]; (contradiction || congruence || discriminate) ].

(** The three ways a call of [AddPrimitive] ends, by the primitive alone.
    It fails the assertion exactly for an unnamed primitive that is no
    Field, and then without looking at the parent.  It returns exactly for
    a named primitive whose name can be dereferenced and for an unnamed
    Field whose parent can be.  It dereferences the past-the-end iterator
    exactly for a named primitive whose name is that iterator and for an
    unnamed Field whose parent is.  No call binds the null reference. *)
Theorem AddPrimitive_outcome K (prim : TYPE_of K) db :
  (AddPrimitive prim db = AssertionFailed no_unnamed_store <->
     name (base prim) = GetNoName /\ K <> KIND_FIELD) /\
  ((exists db', AddPrimitive prim db = Returned (tt, db')) <->
     (name (base prim) <> GetNoName /\ first (name (base prim)) <> None) \/
     (name (base prim) = GetNoName /\ K = KIND_FIELD /\
      first (parent (base prim)) <> None)) /\
  (AddPrimitive prim db = Undefined PastTheEndDereference <->
     (name (base prim) <> GetNoName /\ name (base prim) = NameEnd) \/
     (name (base prim) = GetNoName /\ K = KIND_FIELD /\
      parent (base prim) = NameEnd)) /\
  AddPrimitive prim db <> Undefined NullDereference /\
  (forall msg, AddPrimitive prim db = AssertionFailed msg -> msg = no_unnamed_store).
Proof.
  unfold crdb.AddPrimitive.
  destruct (Name_eqb (name (base prim)) GetNoName) eqn:E.
  - apply Name_eqb_eq in E.
    assert (Hfield : K = KIND_FIELD \/ K <> KIND_FIELD)
      by (destruct (Kind_eq_dec K KIND_FIELD); auto).
    destruct Hfield as [HK|HK].
    + revert prim E. rewrite HK. intros f E.
      unfold bind, lift, deref, modify. cbn.
      destruct (parent f) as [|p]; cbn; repeat split; outcome_case.
    + assert (Hrun :
        (store <- lift (GetUnnamedPrimitiveStore K) ;;
         key <- deref (parent (base prim)) ;;
         modify store (insert (key, prim))) db = AssertionFailed no_unnamed_store)
        by (destruct K; try reflexivity; congruence).
      rewrite Hrun. repeat split; outcome_case.
  - apply Name_eqb_neq in E.
    unfold bind, deref, modify.
    destruct (name (base prim)) as [|h]; cbn; repeat split; outcome_case.
Qed.

(** *** Lookup after insertion *)

(** The first declaration wins: once [GetFirstPrimitive] finds a primitive
    for a kind and a name string, it finds the same one after every later
    call of [AddPrimitive], whatever is added. *)
Theorem GetFirstPrimitive_first_wins K K' (prim : TYPE_of K) text q db db' :
  ordered (load (GetPrimitiveStore K') db) = true ->
  GetFirstPrimitive K' text db = Returned (Some q, db) ->
  AddPrimitive prim db = Returned (tt, db') ->
  GetFirstPrimitive K' text db' = Returned (Some q, db').
Proof.
  intros Hord Hhit Hadd.
  rewrite GetFirstPrimitive_find in *. injection Hhit as Hhit.
  destruct (find (HashNameString text) (load (GetPrimitiveStore K') db))
    as [e|] eqn:Hfind; [|discriminate Hhit].
  apply AddPrimitive_Returned in Hadd.
  destruct Hadd as [[Hno [h [Hname ->]]]|[Hno [-> [p [f [Hf [Hp ->]]]]]]].
  - destruct (Kind_eq_dec K' K) as [->|HK].
    + rewrite load_save, (find_insert_hit _ _ _ e Hord Hfind).
      cbn [option_map]. now rewrite <- Hhit.
    + rewrite load_save_other, Hfind by assumption.
      cbn [option_map]. now rewrite <- Hhit.
  - rewrite load_save_unnamed, Hfind. cbn [option_map]. now rewrite <- Hhit.
Qed.

(** A call of [AddPrimitive] changes no lookup of another kind, no lookup
    at all when the primitive is unnamed, and no lookup of a name string
    whose hash is not the one the primitive's name stands on. *)
Theorem GetFirstPrimitive_unaffected K K' (prim : TYPE_of K) text db db' :
  AddPrimitive prim db = Returned (tt, db') ->
  K' <> K \/ name (base prim) = GetNoName \/
    name (base prim) <> NameAt (HashNameString text) ->
  exists r,
    GetFirstPrimitive K' text db = Returned (r, db) /\
    GetFirstPrimitive K' text db' = Returned (r, db').
Proof.
  intros Hadd Hcase. eexists. split; [apply GetFirstPrimitive_find|].
  rewrite GetFirstPrimitive_find. f_equal. f_equal. f_equal.
  apply AddPrimitive_Returned in Hadd.
  destruct Hadd as [[Hno [h [Hname ->]]]|[Hno [-> [p [f [Hf [Hp ->]]]]]]].
  - destruct (Kind_eq_dec K' K) as [->|HK].
    + rewrite load_save. apply find_insert_other. cbn [fst].
      destruct Hcase as [HK|[Hyes|Hother]]; congruence.
    + now rewrite load_save_other.
  - now rewrite load_save_unnamed.
Qed.

(** [GetFirstPrimitive] returns a primitive exactly when the store of the
    kind holds an entry keyed by the hash of the name string, the returned
    primitive is such an entry, and it returns the null pointer exactly
    when there is none. *)
Theorem GetFirstPrimitive_hit_iff K text db :
  (forall q,
      GetFirstPrimitive K text db = Returned (Some q, db) ->
      In (HashNameString text, q) (load (GetPrimitiveStore K) db)) /\
  ((exists q, GetFirstPrimitive K text db = Returned (Some q, db)) <->
   (exists q, In (HashNameString text, q) (load (GetPrimitiveStore K) db))) /\
  (GetFirstPrimitive K text db = Returned (None, db) <->
   (forall q, ~ In (HashNameString text, q) (load (GetPrimitiveStore K) db))).
Proof.
  assert (Hhit : forall q,
    GetFirstPrimitive K text db = Returned (Some q, db) ->
    In (HashNameString text, q) (load (GetPrimitiveStore K) db)).
  { intros q H. rewrite GetFirstPrimitive_find in H. injection H as H.
    destruct (find _ _) as [[k g]|] eqn:E; [|discriminate H].
    cbn in H. injection H as ->. apply find_In in E.
    destruct E as [Hin Hk]. cbn in Hk. now subst k. }
  assert (Hpresent : forall q,
    In (HashNameString text, q) (load (GetPrimitiveStore K) db) ->
    exists g, GetFirstPrimitive K text db = Returned (Some g, db)).
  { intros q Hin.
    destruct (find_present (HashNameString text) _ _ Hin eq_refl) as [e He].
    exists (snd e). now rewrite GetFirstPrimitive_find, He. }
  split; [exact Hhit|]. split.
  - split.
    + intros [q H]. exists q. now apply Hhit.
    + intros [q H]. now apply (Hpresent q).
  - split.
    + intros Hnone q Hin. destruct (Hpresent q Hin) as [g Hg].
      rewrite Hg in Hnone. discriminate Hnone.
    + intros Habsent. rewrite GetFirstPrimitive_find.
      destruct (find _ _) as [[k g]|] eqn:E; [|reflexivity].
      apply find_In in E. destruct E as [Hin Hk]. cbn in Hk. subst k.
      now destruct (Habsent g).
Qed.

(** *** Databases built through [AddPrimitive] *)

Lemma built_well_ordered db : built db -> well_ordered db.
Proof.
  induction 1 as [names|K prim db db' _ IH Hadd].
  - apply well_ordered_no_primitives.
  - exact (well_ordered_AddPrimitive K prim db db' IH Hadd).
Qed.

Lemma built_indexed db : built db -> indexed db.
Proof.
  induction 1 as [names|K prim db db' _ IH Hadd].
  - apply indexed_no_primitives.
  - exact (indexed_AddPrimitive K prim db db' IH Hadd).
Qed.

(** In every database built through [AddPrimitive] all stores are in key
    order, a named store holds only named primitives, each under the hash
    of its own name, and the unnamed store holds only unnamed fields, each
    under the hash of its parent. *)
Theorem built_stores db :
  built db ->
  (forall K, ordered (load (GetPrimitiveStore K) db) = true) /\
  ordered (m_UnnamedFields db) = true /\
  (forall K k (prim : TYPE_of K),
      In (k, prim) (load (GetPrimitiveStore K) db) ->
      name (base prim) = NameAt k /\ name (base prim) <> GetNoName) /\
  (forall k (f : Field),
      In (k, f) (m_UnnamedFields db) ->
      name f = GetNoName /\ parent f = NameAt k).
Proof.
  intros Hbuilt.
  destruct (built_well_ordered db Hbuilt) as [Hord Hord'].
  destruct (built_indexed db Hbuilt) as [Hnamed Hunnamed].
  split; [exact Hord|]. split; [exact Hord'|]. split.
  - intros K k prim Hin. specialize (Hnamed K).
    rewrite Forall_forall in Hnamed. destruct (Hnamed _ Hin) as [Hne Hname].
    now split.
  - intros k f Hin. rewrite Forall_forall in Hunnamed.
    exact (Hunnamed _ Hin).
Qed.

(** In a database built through [AddPrimitive], the primitive
    [GetFirstPrimitive] returns for a name string is a named one whose name
    stands on the hash of that string. *)
Theorem built_lookup_sound K text q db :
  built db ->
  GetFirstPrimitive K text db = Returned (Some q, db) ->
  name (base q) = NameAt (HashNameString text) /\ name (base q) <> GetNoName.
Proof.
  intros Hbuilt H. rewrite GetFirstPrimitive_find in H. injection H as H.
  destruct (find _ _) as [[k g]|] eqn:E; [|discriminate H].
  cbn in H. injection H as ->. apply find_In in E.
  destruct E as [Hin Hk]. cbn in Hk. subst k.
  destruct (built_indexed db Hbuilt) as [Hnamed _]. specialize (Hnamed K).
  rewrite Forall_forall in Hnamed. destruct (Hnamed _ Hin) as [Hne Hname].
  now split.
Qed.

(** *** Runs of insertions *)

Lemma AddPrimitives_entries K (entries : list (u32 * TYPE_of K)) db :
  Forall named_entry entries ->
  AddPrimitives (map snd entries) db =
  Returned (tt, save (GetPrimitiveStore K)
                  (insert_range entries (load (GetPrimitiveStore K) db)) db).
Proof.
  revert db. induction entries as [|[h prim] rest IH]; intros db H.
  - cbn. unfold ret. f_equal. f_equal. destruct K, db; reflexivity.
  - inversion H as [|? ? Hhead Hrest]; subst.
    destruct Hhead as [Hno Hname]. cbn in Hno, Hname.
    cbn [map snd crdb.AddPrimitives]. unfold bind.
    rewrite (AddPrimitive_named K prim h db Hno Hname).
    rewrite (IH _ Hrest), load_save, save_save. reflexivity.
Qed.

Lemma AddPrimitives_unnamed_entries (entries : list (u32 * Field)) db :
  Forall unnamed_entry entries ->
  AddPrimitives (K:=KIND_FIELD) (map snd entries) db =
  Returned (tt, save ref_UnnamedFields
                  (insert_range entries (m_UnnamedFields db)) db).
Proof.
  revert db. induction entries as [|[p f] rest IH]; intros db H.
  - cbn. unfold ret. f_equal. f_equal. destruct db; reflexivity.
  - inversion H as [|? ? Hhead Hrest]; subst.
    destruct Hhead as [Hno Hparent]. cbn in Hno, Hparent.
    cbn [map snd crdb.AddPrimitives]. unfold bind.
    rewrite (AddPrimitive_unnamed_Field f p db Hno Hparent).
    rewrite (IH _ Hrest). reflexivity.
Qed.

(** Named primitives of one kind added one after the other, their names
    interleaved in any way: every call returns, and under every key the
    store then yields the earlier entries followed by the added primitives
    of that key in the order of their addition.  The store grows by the
    number of additions and stays in key order. *)
Theorem AddPrimitives_interleaved K (entries : list (u32 * TYPE_of K)) db :
  ordered (load (GetPrimitiveStore K) db) = true ->
  Forall named_entry entries ->
  exists db',
    AddPrimitives (map snd entries) db = Returned (tt, db') /\
    (forall k,
        equal_range k (load (GetPrimitiveStore K) db') =
        equal_range k (load (GetPrimitiveStore K) db) ++ equal_range k entries) /\
    List.length (load (GetPrimitiveStore K) db') =
      (List.length (load (GetPrimitiveStore K) db) + List.length entries)%nat /\
    ordered (load (GetPrimitiveStore K) db') = true.
Proof.
  intros Hord H. eexists. split; [exact (AddPrimitives_entries K entries db H)|].
  rewrite load_save. split; [|split].
  - intros k. now apply equal_range_insert_range.
  - apply insert_range_length.
  - now apply ordered_insert_range.
Qed.

(** Unnamed fields added one after the other, their parents interleaved in
    any way: every call returns, under every parent hash the unnamed store
    then yields the earlier fields followed by the added ones of that
    parent in the order of their addition, and the named Field store is as
    before. *)
Theorem unnamed_Fields_interleaved (entries : list (u32 * Field)) db :
  ordered (m_UnnamedFields db) = true ->
  Forall unnamed_entry entries ->
  exists db',
    AddPrimitives (K:=KIND_FIELD) (map snd entries) db = Returned (tt, db') /\
    (forall k,
        equal_range k (m_UnnamedFields db') =
        equal_range k (m_UnnamedFields db) ++ equal_range k entries) /\
    m_Fields db' = m_Fields db /\
    ordered (m_UnnamedFields db') = true.
Proof.
  intros Hord H. eexists.
  split; [exact (AddPrimitives_unnamed_entries entries db H)|].
  cbn. split; [|split].
  - intros k. now apply equal_range_insert_range.
  - reflexivity.
  - now apply ordered_insert_range.
Qed.

(** *** Insertions that can be swapped *)

Lemma AddPrimitive_Returned_cases K (prim : TYPE_of K) db db' :
  AddPrimitive prim db = Returned (tt, db') ->
  (name (base prim) <> GetNoName /\ exists h, name (base prim) = NameAt h) \/
  (name (base prim) = GetNoName /\ K = KIND_FIELD /\
   exists p, parent (base prim) = NameAt p).
Proof.
  intros H. apply AddPrimitive_Returned in H.
  destruct H as [[Hno [h [Hname _]]]|[Hno [HK [p [_ [_ [Hp _]]]]]]].
  - left. split; [assumption|]. now exists h.
  - right. split; [assumption|]. split; [assumption|]. now exists p.
Qed.

(** Two calls of [AddPrimitive] that go to different stores, or to one
    store under different keys, give the same database in either order:
    primitives of different types, a named and an unnamed one, two named
    ones with different names, two unnamed fields with different
    parents. *)
Theorem AddPrimitive_commute K1 K2 (p1 : TYPE_of K1) (p2 : TYPE_of K2) db d1 d2 :
  AddPrimitive p1 db = Returned (tt, d1) ->
  AddPrimitive p2 db = Returned (tt, d2) ->
  K1 <> K2 \/ name (base p1) <> name (base p2) \/
    (name (base p1) = GetNoName /\ parent (base p1) <> parent (base p2)) ->
  exists db',
    (AddPrimitive p1 ;;; AddPrimitive p2) db = Returned (tt, db') /\
    (AddPrimitive p2 ;;; AddPrimitive p1) db = Returned (tt, db').
Proof.
  intros H1 H2 Hcond.
  pose proof (AddPrimitive_Returned_cases _ _ _ _ H1) as C1.
  pose proof (AddPrimitive_Returned_cases _ _ _ _ H2) as C2.
  unfold bind. rewrite H1, H2.
  destruct C1 as [[Hno1 [h1 Hn1]]|[Hno1 [HK1 [q1 Hq1]]]];
    destruct C2 as [[Hno2 [h2 Hn2]]|[Hno2 [HK2 [q2 Hq2]]]].
  - assert (E1 : d1 = save (GetPrimitiveStore K1)
                        (insert (h1, p1) (load (GetPrimitiveStore K1) db)) db)
      by (rewrite (AddPrimitive_named K1 p1 h1 db Hno1 Hn1) in H1; now injection H1).
    assert (E2 : d2 = save (GetPrimitiveStore K2)
                        (insert (h2, p2) (load (GetPrimitiveStore K2) db)) db)
      by (rewrite (AddPrimitive_named K2 p2 h2 db Hno2 Hn2) in H2; now injection H2).
    rewrite (AddPrimitive_named K2 p2 h2 _ Hno2 Hn2).
    rewrite (AddPrimitive_named K1 p1 h1 _ Hno1 Hn1).
    eexists. split; [reflexivity|]. f_equal. f_equal. rewrite E1, E2.
    destruct (Kind_eq_dec K1 K2) as [E|NE].
    + revert p2 Hno2 Hn2 Hcond H2 E2. destruct E. intros p2 Hno2 Hn2 Hcond _ _.
      rewrite !load_save, !save_save. f_equal.
      apply insert_comm. cbn [fst].
      destruct Hcond as [HK|[Hne|[Hyes _]]]; congruence.
    + rewrite !load_save_other by congruence. now apply save_comm.
  - revert p2 H2 Hno2 Hq2 Hcond. rewrite HK2. intros f2 H2 Hno2 Hq2 Hcond.
    assert (E1 : d1 = save (GetPrimitiveStore K1)
                        (insert (h1, p1) (load (GetPrimitiveStore K1) db)) db)
      by (rewrite (AddPrimitive_named K1 p1 h1 db Hno1 Hn1) in H1; now injection H1).
    assert (E2 : d2 = save ref_UnnamedFields
                        (insert (q2, f2) (m_UnnamedFields db)) db)
      by (rewrite (AddPrimitive_unnamed_Field f2 q2 db Hno2 Hq2) in H2;
          now injection H2).
    rewrite (AddPrimitive_unnamed_Field f2 q2 _ Hno2 Hq2).
    rewrite (AddPrimitive_named K1 p1 h1 _ Hno1 Hn1).
    eexists. split; [reflexivity|]. f_equal. f_equal. rewrite E1, E2.
    rewrite unnamed_save, load_save_unnamed. apply save_unnamed_comm.
  - revert p1 H1 Hno1 Hq1 Hcond. rewrite HK1. intros f1 H1 Hno1 Hq1 Hcond.
    assert (E1 : d1 = save ref_UnnamedFields
                        (insert (q1, f1) (m_UnnamedFields db)) db)
      by (rewrite (AddPrimitive_unnamed_Field f1 q1 db Hno1 Hq1) in H1;
          now injection H1).
    assert (E2 : d2 = save (GetPrimitiveStore K2)
                        (insert (h2, p2) (load (GetPrimitiveStore K2) db)) db)
      by (rewrite (AddPrimitive_named K2 p2 h2 db Hno2 Hn2) in H2; now injection H2).
    rewrite (AddPrimitive_named K2 p2 h2 _ Hno2 Hn2).
    rewrite (AddPrimitive_unnamed_Field f1 q1 _ Hno1 Hq1).
    eexists. split; [reflexivity|]. f_equal. f_equal. rewrite E1, E2.
    rewrite unnamed_save, load_save_unnamed. apply eq_sym, save_unnamed_comm.
  - revert p1 H1 Hno1 Hq1 Hcond. rewrite HK1. intros f1 H1 Hno1 Hq1.
    revert p2 H2 Hno2 Hq2. rewrite HK2. intros f2 H2 Hno2 Hq2 Hcond.
    assert (E1 : d1 = save ref_UnnamedFields
                        (insert (q1, f1) (m_UnnamedFields db)) db)
      by (rewrite (AddPrimitive_unnamed_Field f1 q1 db Hno1 Hq1) in H1;
          now injection H1).
    assert (E2 : d2 = save ref_UnnamedFields
                        (insert (q2, f2) (m_UnnamedFields db)) db)
      by (rewrite (AddPrimitive_unnamed_Field f2 q2 db Hno2 Hq2) in H2;
          now injection H2).
    rewrite (AddPrimitive_unnamed_Field f2 q2 _ Hno2 Hq2).
    rewrite (AddPrimitive_unnamed_Field f1 q1 _ Hno1 Hq1).
    eexists. split; [reflexivity|]. f_equal. f_equal. rewrite E1, E2.
    cbn. f_equal. apply insert_comm. cbn [fst].
    destruct Hcond as [HK|[Hne|[_ Hpar]]]; cbn in *; congruence.
Qed.

End MemberFacts.

(** ** The theorems at the sample data *)

Lemma well_ordered_sample_db : well_ordered sample_db.
Proof. split; [intros K; destruct K|]; reflexivity. Qed.

Lemma indexed_sample_db : indexed NameEnd sample_db.
Proof.
  split; [intros K; destruct K|]; cbn;
    repeat (constructor; cbn); try discriminate; reflexivity.
Qed.

Lemma AddPrimitive_dispatch_witness :
  AddPrimitive NameEnd (K:=KIND_FIELD) sample_unnamed_field sample_db =
    Returned (tt, save ref_UnnamedFields
                    (insert (6, sample_unnamed_field) (m_UnnamedFields sample_db))
                    sample_db) /\
  AddPrimitive NameEnd (K:=KIND_CLASS)
    (Class_npbs NameEnd sample_parent NameEnd 8) sample_db =
    AssertionFailed no_unnamed_store /\
  AddPrimitive NameEnd (K:=KIND_NAMESPACE) sample_namespace sample_db =
    Returned (tt, save ref_Namespaces
                    (insert (4, sample_namespace) (m_Namespaces sample_db))
                    sample_db).
Proof.
  destruct (AddPrimitive_dispatch NameEnd) as [Hfield [Hother Hnamed]].
  split; [|split].
  - apply Hfield; reflexivity.
  - apply Hother; [discriminate|reflexivity].
  - apply (Hnamed KIND_NAMESPACE); [discriminate|reflexivity].
Defined.

(** C1, as stated, at an anonymous namespace: its name is the reserved
    no-name, and [AddPrimitive] fails the assertion instead of inserting it
    anywhere. *)
Lemma AddPrimitive_anonymous_namespace :
  name sample_anonymous_namespace = NameEnd /\
  AddPrimitive NameEnd (K:=KIND_NAMESPACE) sample_anonymous_namespace sample_db =
    AssertionFailed no_unnamed_store /\
  ~ (exists db',
        AddPrimitive NameEnd (K:=KIND_NAMESPACE) sample_anonymous_namespace sample_db =
        Returned (tt, db')).
Proof.
  split; [reflexivity|]. split; [reflexivity|].
  intros [db' H]. discriminate H.
Qed.

Lemma AddPrimitive_N_times_witness :
  exists db',
    AddPrimitives NameEnd (K:=KIND_FIELD) (repeat sample_other_field 2) sample_db =
      Returned (tt, db') /\
    equal_range 1 (m_Fields db') =
      [(1, sample_field); (1, sample_other_field); (1, sample_other_field)] /\
    List.length (m_Fields db') = 3%nat /\
    GetFirstPrimitive sample_hash KIND_FIELD "x" db' = Returned (Some sample_field, db').
Proof.
  destruct (AddPrimitive_N_times sample_hash NameEnd KIND_FIELD sample_other_field
              1 "x" 2 sample_db)
    as [db' [Hrun [Hrange [Hlen [Hfirst _]]]]];
    [reflexivity|discriminate|reflexivity|reflexivity|lia|].
  exists db'. split; [exact Hrun|]. split; [exact Hrange|].
  split; [exact Hlen|exact Hfirst].
Defined.

Lemma Merge_union_witness :
  exists target',
    Merge_call sample_db sample_other_db = Returned (target', sample_other_db) /\
    equal_range 1 (m_Fields target') =
      [(1, sample_field); (1, sample_other_field); (1, sample_field)] /\
    List.length (m_Types target') = 1%nat /\
    GetFirstPrimitive sample_hash KIND_FIELD "x" target' =
      Returned (Some sample_field, target').
Proof.
  destruct (Merge_union sample_hash sample_db sample_other_db well_ordered_sample_db)
    as [target' [Hcall [Hnamed [_ [Hlen [_ Hfirst]]]]]].
  exists target'. split; [exact Hcall|].
  split; [exact (Hnamed KIND_FIELD 1)|].
  split; [exact (Hlen KIND_TYPE)|exact (Hfirst KIND_FIELD "x"%string)].
Defined.

Lemma GetUnnamedPrimitiveStore_Field_only_witness :
  GetUnnamedPrimitiveStore KIND_FUNCTION = AssertionFailed no_unnamed_store /\
  GetUnnamedPrimitiveStore KIND_FIELD = Returned ref_UnnamedFields.
Proof.
  destruct GetUnnamedPrimitiveStore_Field_only as [Hother [_ [Hfield _]]].
  split; [apply Hother; discriminate|exact Hfield].
Defined.

Lemma unnamed_Field_by_parent_only_witness :
  exists db',
    AddPrimitive NameEnd (K:=KIND_FIELD) sample_unnamed_field sample_db =
      Returned (tt, db') /\
    In (6, sample_unnamed_field) (equal_range 6 (m_UnnamedFields db')) /\
    (forall k, In (k, sample_unnamed_field) (equal_range k (m_UnnamedFields db')) ->
               k = 6) /\
    (forall k, ~ In (k, sample_unnamed_field) (m_Fields db')) /\
    (forall text,
        GetFirstPrimitive sample_hash KIND_FIELD text db' <>
        Returned (Some sample_unnamed_field, db')).
Proof.
  destruct (unnamed_Field_by_parent_only sample_hash NameEnd sample_unnamed_field 6
              sample_db indexed_sample_db)
    as [db' [Hrun [Hin [Honly [_ [Hnot Hfirst]]]]]]; [reflexivity|reflexivity|].
  exists db'. repeat (split; [assumption|]). assumption.
Defined.

Lemma GetFirstPrimitive_miss_witness :
  GetFirstPrimitive sample_hash KIND_FIELD "zz" sample_db = Returned (None, sample_db) /\
  GetFirstPrimitive sample_hash KIND_CLASS "x" sample_db = Returned (None, sample_db).
Proof.
  split.
  - apply (GetFirstPrimitive_miss sample_hash KIND_FIELD).
    intros e [<-|[]]. discriminate.
  - apply (GetFirstPrimitive_miss sample_hash KIND_CLASS).
    intros e [].
Defined.

Lemma AddPrimitive_frame_witness :
  exists db',
    AddPrimitive NameEnd (K:=KIND_FIELD) sample_other_field sample_db =
      Returned (tt, db') /\
    m_Fields db' = [(1, sample_field); (1, sample_other_field)] /\
    m_Names db' = m_Names sample_db /\
    (forall K', K' <> KIND_FIELD ->
       load (GetPrimitiveStore K') db' = load (GetPrimitiveStore K') sample_db) /\
    m_UnnamedFields db' = m_UnnamedFields sample_db.
Proof.
  destruct (AddPrimitive_frame NameEnd KIND_FIELD sample_other_field sample_db)
    as [Hframe [Hnamed _]].
  destruct (Hnamed 1) as [db' [Hrun Hstore]]; [discriminate|reflexivity|].
  destruct (Hframe db' Hrun) as [Hnames [Hothers [Hunnamed _]]].
  exists db'. split; [exact Hrun|]. split; [exact Hstore|].
  split; [exact Hnames|]. split; [exact Hothers|].
  apply Hunnamed. discriminate.
Defined.

Lemma built_sample_db_built : built NameEnd sample_db_built.
Proof.
  exact (built_add NameEnd KIND_FIELD sample_field (no_primitives []) sample_db_built
           (built_start NameEnd []) eq_refl).
Qed.

Lemma named_sample_entries : Forall (named_entry NameEnd (K:=KIND_FIELD)) sample_entries.
Proof.
  repeat (apply Forall_cons; [split; [discriminate|reflexivity]|]). apply Forall_nil.
Qed.

Lemma unnamed_sample_entries : Forall (unnamed_entry NameEnd) sample_unnamed_entries.
Proof.
  repeat (apply Forall_cons; [split; reflexivity|]). apply Forall_nil.
Qed.

Lemma GetFirstPrimitive_first_wins_witness :
  GetFirstPrimitive sample_hash KIND_FIELD "x" sample_db_more =
  Returned (Some sample_field, sample_db_more).
Proof.
  apply (GetFirstPrimitive_first_wins sample_hash NameEnd KIND_FIELD KIND_FIELD
           sample_other_field "x" sample_field sample_db sample_db_more);
    reflexivity.
Defined.

Lemma GetFirstPrimitive_unaffected_witness :
  exists r,
    GetFirstPrimitive sample_hash KIND_FIELD "int" sample_db = Returned (r, sample_db) /\
    GetFirstPrimitive sample_hash KIND_FIELD "int" sample_db_more =
      Returned (r, sample_db_more).
Proof.
  apply (GetFirstPrimitive_unaffected sample_hash NameEnd KIND_FIELD KIND_FIELD
           sample_other_field "int" sample_db sample_db_more); [reflexivity|].
  right. right. discriminate.
Defined.

Lemma built_stores_witness :
  ordered (m_Fields sample_db_built) = true /\
  (forall k (prim : Field),
      In (k, prim) (m_Fields sample_db_built) ->
      name prim = NameAt k /\ name prim <> NameEnd).
Proof.
  destruct (built_stores NameEnd sample_db_built built_sample_db_built)
    as [Hord [_ [Hnamed _]]].
  split; [exact (Hord KIND_FIELD)|exact (Hnamed KIND_FIELD)].
Defined.

Lemma built_lookup_sound_witness :
  name sample_field = NameAt (sample_hash "x") /\ name sample_field <> NameEnd.
Proof.
  apply (built_lookup_sound sample_hash NameEnd KIND_FIELD "x" sample_field
           sample_db_built built_sample_db_built).
  reflexivity.
Defined.

Lemma AddPrimitives_interleaved_witness :
  exists db',
    AddPrimitives NameEnd (K:=KIND_FIELD) (map snd sample_entries) sample_db =
      Returned (tt, db') /\
    equal_range 1 (m_Fields db') = [(1, sample_field); (1, sample_other_field)] /\
    map (fun e => offset (snd e)) (equal_range 3 (m_Fields db')) = [4; 12] /\
    List.length (m_Fields db') = 4%nat.
Proof.
  destruct (AddPrimitives_interleaved NameEnd KIND_FIELD sample_entries sample_db
              eq_refl named_sample_entries)
    as [db' [Hrun [Hrange [Hlen _]]]].
  exists db'. split; [exact Hrun|].
  split; [exact (Hrange 1)|].
  split; [|exact Hlen].
  exact (f_equal (map (fun e => offset (snd e))) (Hrange 3)).
Defined.

Lemma unnamed_Fields_interleaved_witness :
  exists db',
    AddPrimitives NameEnd (K:=KIND_FIELD) (map snd sample_unnamed_entries) sample_db =
      Returned (tt, db') /\
    map (fun e => offset (snd e)) (equal_range 6 (m_UnnamedFields db')) = [1; 2; 3] /\
    map (fun e => offset (snd e)) (equal_range 4 (m_UnnamedFields db')) = [0] /\
    m_Fields db' = m_Fields sample_db.
Proof.
  destruct (unnamed_Fields_interleaved NameEnd sample_unnamed_entries sample_db
              eq_refl unnamed_sample_entries)
    as [db' [Hrun [Hrange [Hfields _]]]].
  exists db'. split; [exact Hrun|].
  split; [exact (f_equal (map (fun e => offset (snd e))) (Hrange 6))|].
  split; [exact (f_equal (map (fun e => offset (snd e))) (Hrange 4))|exact Hfields].
Defined.

Lemma AddPrimitive_commute_witness :
  exists db',
    (AddPrimitive NameEnd (K:=KIND_FIELD) sample_other_field ;;;
     AddPrimitive NameEnd (K:=KIND_FIELD) sample_int_field) sample_db =
      Returned (tt, db') /\
    (AddPrimitive NameEnd (K:=KIND_FIELD) sample_int_field ;;;
     AddPrimitive NameEnd (K:=KIND_FIELD) sample_other_field) sample_db =
      Returned (tt, db').
Proof.
  apply (AddPrimitive_commute NameEnd KIND_FIELD KIND_FIELD
           sample_other_field sample_int_field sample_db sample_db_more
           (save ref_Fields (insert (3, sample_int_field) (m_Fields sample_db)) sample_db));
    [reflexivity|reflexivity|].
  right. left. discriminate.
Defined.

End crdb.
